(** * Key rotation and streaming relay of the JustAskIT chat server

    Shallow embedding of [APIKeyManager] and of the [/api/chat] route of
    [server/routes.ts] (bundled in [shared/schema.ts]).  [Date.now()] is an
    explicit argument of every operation that reads it; the manager's
    private fields become a record threaded through the operations. *)

From Stdlib Require Import ZArith List Lia Permutation Finite String Ascii.
From stdpp Require Import base gmap list strings.
Import ListNotations.

Set Warnings "-register-all".
Open Scope Z_scope.

Module KeyManager.

(** [class APIKeyManager { keys; currentKeyIndex; keyRateLimitedUntil }] *)
Record manager := mkManager {
  keys : list string;
  currentKeyIndex : nat;
  keyRateLimitedUntil : gmap nat Z
}.

(** [this.keyRateLimitedUntil.get(index) || 0] *)
Definition rateLimitedUntil (m : manager) (i : nat) : Z :=
  default 0 (keyRateLimitedUntil m !! i).

(** The [for (let i = 0; i < this.keys.length; i++)] loop of
    [getNextAvailableKey]: [n] is the number of iterations left. *)
Fixpoint scan (m : manager) (now : Z) (i n : nat) : option nat :=
  match n with
  | O => None
  | S n' =>
      let keyIndex := ((currentKeyIndex m + i) mod length (keys m))%nat in
      if Z.leb (rateLimitedUntil m keyIndex) now then Some keyIndex
      else scan m now (S i) n'
  end.

Definition set_cursor (m : manager) (c : nat) : manager :=
  mkManager (keys m) c (keyRateLimitedUntil m).

Definition set_table (m : manager) (t : gmap nat Z) : manager :=
  mkManager (keys m) (currentKeyIndex m) t.

(** [getNextAvailableKey(): string | null], called at time [now]. *)
Definition getNextAvailableKey (now : Z) (m : manager) : option string * manager :=
  if Nat.eqb (length (keys m)) 0 then (None, m)
  else match scan m now 0 (length (keys m)) with
       | Some keyIndex =>
           (keys m !! keyIndex,
            set_cursor m ((keyIndex + 1) mod length (keys m))%nat)
       | None => (None, m)
       end.

(** [Array.prototype.indexOf]: first occurrence, [-1] as [None]. *)
Fixpoint indexOf (k : string) (l : list string) : option nat :=
  match l with
  | [] => None
  | x :: l' => if String.eqb x k then Some 0%nat
               else option_map S (indexOf k l')
  end.

(** [markKeyAsRateLimited(key, duration = 60000)], called at time [now]. *)
Definition markKeyAsRateLimited (now : Z) (key : string) (duration : Z)
    (m : manager) : manager :=
  match indexOf key (keys m) with
  | Some keyIndex => set_table m (<[keyIndex := now + duration]> (keyRateLimitedUntil m))
  | None => m
  end.

Definition default_duration : Z := 60000.

(** [allKeysRateLimited()]: [this.keys.every((_, index) => now < ...)]. *)
Definition allKeysRateLimited (now : Z) (m : manager) : bool :=
  forallb (fun i => Z.ltb now (rateLimitedUntil m i)) (seq 0 (length (keys m))).

(** A sequence of manager calls, as concurrent requests interleave them. *)
Inductive op :=
| OpNext (now : Z)
| OpMark (now : Z) (key : string) (duration : Z)
| OpAll (now : Z).

(** Runs [ops]; collects [(now, result)] of each [getNextAvailableKey]. *)
Fixpoint run (ops : list op) (m : manager) : list (Z * option string) * manager :=
  match ops with
  | [] => ([], m)
  | OpNext now :: ops' =>
      let '(k, m1) := getNextAvailableKey now m in
      let '(rs, m2) := run ops' m1 in ((now, k) :: rs, m2)
  | OpMark now key d :: ops' => run ops' (markKeyAsRateLimited now key d m)
  | OpAll now :: ops' => let _ := allKeysRateLimited now m in run ops' m
  end.

(** Successive [getNextAvailableKey] calls at the times [ts]. *)
Fixpoint run_next (ts : list Z) (m : manager) : list (option string) * manager :=
  match ts with
  | [] => ([], m)
  | t :: ts' =>
      let '(k, m1) := getNextAvailableKey t m in
      let '(ks, m2) := run_next ts' m1 in (k :: ks, m2)
  end.

(** [process.env[name]] read as a truthy key: [undefined] and the empty string add
    nothing. *)
Definition env_key (v : option string) : list string :=
  match v with
  | Some k => if String.eqb k EmptyString then [] else [k]
  | None => []
  end.

Definition numbered_names : list string :=
  ["OPENROUTER_API_KEY_1"; "OPENROUTER_API_KEY_2"; "OPENROUTER_API_KEY_3";
   "OPENROUTER_API_KEY_4"; "OPENROUTER_API_KEY_5"].

(** The key list built by [constructor()] from [process.env]. *)
Definition load_keys (env : string -> option string) : list string :=
  let numbered := flat_map (fun name => env_key (env name)) numbered_names in
  match numbered with
  | [] => env_key (env "OPENROUTER_API_KEY")
  | _ => numbered
  end.

(** [new APIKeyManager()] *)
Definition new_manager (env : string -> option string) : manager :=
  mkManager (load_keys env) 0 ∅.

End KeyManager.

(** ** JavaScript values seen by the streaming loop *)
Module Json.

(** A JavaScript string is a sequence of UTF-16 code units. *)
Definition jsstring := list N.

(** Literal helper: an ASCII Rocq string as a JavaScript string. *)
Definition js (s : string) : jsstring :=
  map (fun a => N_of_ascii a) (list_ascii_of_string s).

(** Literal helper for JSON text: a single quote stands for a double one. *)
Definition jq (s : string) : jsstring :=
  map (fun c => if (c =? 39)%N then 34%N else c) (js s).

(** Values produced by [JSON.parse]; a number literal is kept exactly as
    [m * 10 ^ e]. *)
Inductive jval :=
| JNull
| JBool (b : bool)
| JNum (m e : Z)
| JStr (s : jsstring)
| JArr (l : list jval)
| JObj (fields : list (jsstring * jval)).

Definition is_ws (c : N) : bool :=
  (c =? 32)%N || (c =? 9)%N || (c =? 10)%N || (c =? 13)%N.

Fixpoint skip_ws (s : jsstring) : jsstring :=
  match s with
  | c :: s' => if is_ws c then skip_ws s' else s
  | [] => []
  end.

Definition is_digit (c : N) : bool := (48 <=? c)%N && (c <=? 57)%N.

(** Longest prefix of decimal digits. *)
Fixpoint digits (s : jsstring) : list N * jsstring :=
  match s with
  | c :: s' => if is_digit c then let '(ds, r) := digits s' in (c :: ds, r)
               else ([], s)
  | [] => ([], [])
  end.

Definition digits_value (ds : list N) : Z :=
  fold_left (fun acc d => acc * 10 + Z.of_N (d - 48)) ds 0.

Definition hex_value (c : N) : option N :=
  if is_digit c then Some (c - 48)%N
  else if ((65 <=? c) && (c <=? 70))%N then Some (c - 55)%N
  else if ((97 <=? c) && (c <=? 102))%N then Some (c - 87)%N
  else None.

(** Body of a JSON string literal after its opening quote; returns the
    decoded code units and the input after the closing quote. *)
Fixpoint parse_string_body (s : jsstring) (acc : jsstring)
    : option (jsstring * jsstring) :=
  match s with
  | [] => None
  | 34%N :: r => Some (rev acc, r)
  | 92%N :: 117%N :: h1 :: h2 :: h3 :: h4 :: r =>
      match hex_value h1, hex_value h2, hex_value h3, hex_value h4 with
      | Some a, Some b, Some c, Some d =>
          parse_string_body r ((((a * 16 + b) * 16 + c) * 16 + d)%N :: acc)
      | _, _, _, _ => None
      end
  | 92%N :: e :: r =>
      let u := if (e =? 34)%N then Some 34%N
               else if (e =? 92)%N then Some 92%N
               else if (e =? 47)%N then Some 47%N
               else if (e =? 98)%N then Some 8%N
               else if (e =? 102)%N then Some 12%N
               else if (e =? 110)%N then Some 10%N
               else if (e =? 114)%N then Some 13%N
               else if (e =? 116)%N then Some 9%N
               else None in
      match u with
      | Some c => parse_string_body r (c :: acc)
      | None => None
      end
  | c :: r => if (c <? 32)%N || (c =? 92)%N then None
              else parse_string_body r (c :: acc)
  end.

(** [-? (0 | [1-9][0-9]* ) (. [0-9]+)? ([eE] [+-]? [0-9]+)?] *)
Definition parse_number (s : jsstring) : option (jval * jsstring) :=
  let '(neg, s1) := match s with
                    | 45%N :: s' => (true, s')
                    | _ => (false, s)
                    end in
  let int_part := match s1 with
                  | 48%N :: s2 => Some ([48%N], s2)
                  | c :: _ => if is_digit c then Some (digits s1) else None
                  | [] => None
                  end in
  match int_part with
  | None => None
  | Some (ip, s2) =>
    let frac := match s2 with
                | 46%N :: s3 => let '(fd, s4) := digits s3 in
                                match fd with [] => None | _ => Some (fd, s4) end
                | _ => Some ([], s2)
                end in
    match frac with
    | None => None
    | Some (fp, s3) =>
      let exp := match s3 with
                 | c :: s4 =>
                     if (c =? 101)%N || (c =? 69)%N then
                       let '(esign, s5) := match s4 with
                                           | 43%N :: s5 => (1, s5)
                                           | 45%N :: s5 => (-1, s5)
                                           | _ => (1, s4)
                                           end in
                       let '(ed, s6) := digits s5 in
                       match ed with
                       | [] => None
                       | _ => Some (esign * digits_value ed, s6)
                       end
                     else Some (0, s3)
                 | [] => Some (0, s3)
                 end in
      match exp with
      | None => None
      | Some (e, s4) =>
          let m := digits_value (ip ++ fp) in
          Some (JNum (if neg then - m else m) (e - Z.of_nat (length fp)), s4)
      end
    end
  end.

(** Recursive descent over values; [fuel] bounds the nesting.  Every two
    nested calls consume at least one code unit, so [JSON_parse] supplies
    [2 * length text + 2] units of fuel. *)
Fixpoint parse_value (fuel : nat) (s : jsstring) : option (jval * jsstring) :=
  match fuel with
  | O => None
  | S f =>
    match skip_ws s with
    | 123%N :: s1 =>
        match skip_ws s1 with
        | 125%N :: s2 => Some (JObj [], s2)
        | _ => parse_members f s1 []
        end
    | 91%N :: s1 =>
        match skip_ws s1 with
        | 93%N :: s2 => Some (JArr [], s2)
        | _ => parse_elements f s1 []
        end
    | 34%N :: s1 =>
        match parse_string_body s1 [] with
        | Some (str, r) => Some (JStr str, r)
        | None => None
        end
    | 116%N :: 114%N :: 117%N :: 101%N :: s1 => Some (JBool true, s1)
    | 102%N :: 97%N :: 108%N :: 115%N :: 101%N :: s1 => Some (JBool false, s1)
    | 110%N :: 117%N :: 108%N :: 108%N :: s1 => Some (JNull, s1)
    | s1 => parse_number s1
    end
  end
with parse_members (fuel : nat) (s : jsstring) (acc : list (jsstring * jval))
    : option (jval * jsstring) :=
  match fuel with
  | O => None
  | S f =>
    match skip_ws s with
    | 34%N :: s1 =>
        match parse_string_body s1 [] with
        | Some (k, s2) =>
            match skip_ws s2 with
            | 58%N :: s3 =>
                match parse_value f s3 with
                | Some (v, s4) =>
                    match skip_ws s4 with
                    | 44%N :: s5 => parse_members f s5 ((k, v) :: acc)
                    | 125%N :: s5 => Some (JObj (rev ((k, v) :: acc)), s5)
                    | _ => None
                    end
                | None => None
                end
            | _ => None
            end
        | None => None
        end
    | _ => None
    end
  end
with parse_elements (fuel : nat) (s : jsstring) (acc : list jval)
    : option (jval * jsstring) :=
  match fuel with
  | O => None
  | S f =>
    match parse_value f s with
    | Some (v, s1) =>
        match skip_ws s1 with
        | 44%N :: s2 => parse_elements f s2 (v :: acc)
        | 93%N :: s2 => Some (JArr (rev (v :: acc)), s2)
        | _ => None
        end
    | None => None
    end
  end.

(** [JSON.parse(text)]: [None] is the thrown [SyntaxError]. *)
Definition JSON_parse (text : jsstring) : option jval :=
  match parse_value (2 * length text + 2) text with
  | Some (v, r) => match skip_ws r with [] => Some v | _ => None end
  | None => None
  end.

(** Own data property of a parsed object; with duplicate keys the last
    one wins, as in [JSON.parse]. *)
Definition assoc_last (k : jsstring) (fs : list (jsstring * jval)) : option jval :=
  fold_left (fun acc kv => if bool_decide (kv.1 = k) then Some kv.2 else acc) fs None.

(** [v.name] for the names [choices], [delta], [content]: none of them is
    an array index or a property of a primitive's prototype, so only
    objects have them.  [None] is [undefined]. *)
Definition get_named (v : jval) (name : jsstring) : option jval :=
  match v with
  | JObj fs => assoc_last name fs
  | _ => None
  end.

(** [v[0]] *)
Definition get_index0 (v : jval) : option jval :=
  match v with
  | JArr (x :: _) => Some x
  | JObj fs => assoc_last (js "0") fs
  | JStr (c :: _) => Some (JStr [c])
  | _ => None
  end.

(** [x?.rest]: [undefined] when [x] is [null] or [undefined]. *)
Definition opt_chain (x : option jval) (k : jval -> option jval) : option jval :=
  match x with
  | None | Some JNull => None
  | Some v => k v
  end.

(** [parsed.choices?.[0]?.delta?.content]; the outer [None] is the
    [TypeError] thrown by [null.choices]. *)
Definition delta_content (parsed : jval) : option (option jval) :=
  match parsed with
  | JNull => None
  | _ => Some (opt_chain (get_named parsed (js "choices")) (fun c =>
               opt_chain (get_index0 c) (fun e =>
               opt_chain (get_named e (js "delta")) (fun d =>
               get_named d (js "content")))))
  end.

(** A finite double is zero iff the literal [m * 10 ^ e] is zero or rounds
    to zero, i.e. its magnitude is at most [2 ^ -1075]. *)
Definition num_truthy (m e : Z) : bool :=
  negb (m =? 0) && ((0 <=? e) || (10 ^ (- e) <? Z.abs m * 2 ^ 1075)).

(** JavaScript truthiness of [content]; [undefined] is [None]. *)
Definition truthy (v : option jval) : bool :=
  match v with
  | None | Some JNull => false
  | Some (JBool b) => b
  | Some (JNum m e) => num_truthy m e
  | Some (JStr s) => negb (bool_decide (s = []))
  | Some (JArr _) | Some (JObj _) => true
  end.

End Json.

(** ** The [/api/chat] streaming loop *)
Module Relay.
Import Json.

(** What one [res.write] sends: [data: {"content": <v>}\n\n] or
    [data: [DONE]\n\n]. *)
Inductive event :=
| EvContent (content : jval)
| EvDone.

Fixpoint starts_with (p s : jsstring) : bool :=
  match p, s with
  | [], _ => true
  | c :: p', d :: s' => (c =? d)%N && starts_with p' s'
  | _ :: _, [] => false
  end.

(** [chunk.split("\n")] *)
Fixpoint split_nl (s : jsstring) : list jsstring :=
  match s with
  | [] => [[]]
  | c :: s' =>
      if (c =? 10)%N then [] :: split_nl s'
      else match split_nl s' with
           | l :: ls => (c :: l) :: ls
           | [] => [[c]]
           end
  end.

(** The body of [for (const line of lines)]; both [catch] blocks only log. *)
Definition process_line (line : jsstring) : list event :=
  if starts_with (js "data: ") line then
    let data := drop 6 line in
    if bool_decide (data = js "[DONE]") then [EvDone]
    else match JSON_parse data with
         | None => []
         | Some parsed =>
             match delta_content parsed with
             | None => []
             | Some content =>
                 if truthy content then
                   match content with
                   | Some v => [EvContent v]
                   | None => []
                   end
                 else []
             end
         end
  else [].

(** [while (true) { const { done, value } = await reader.read(); ... }]:
    [reads] are the successive [decoder.decode(value, { stream: true })]
    strings up to [done] (or up to a failed read, which the outer [catch]
    turns into the end of the loop). *)
Fixpoint relay (reads : list jsstring) : list event :=
  match reads with
  | [] => []
  | chunk :: rest => flat_map process_line (split_nl chunk) ++ relay rest
  end.

End Relay.

(** ** The [/api/chat] route *)
Module Chat.
Import KeyManager Json Relay.

(** The [chatRequestSchema] fields after [parse]; a history turn is a
    (role, content) pair. *)
Record chatRequest := mkChatRequest {
  message : jsstring;
  conversationHistory : option (list (jsstring * jsstring));
  conversationId : option jsstring
}.

Fixpoint all_some {A B} (f : A -> option B) (l : list A) : option (list B) :=
  match l with
  | [] => Some []
  | x :: l' => match f x, all_some f l' with
               | Some y, Some ys => Some (y :: ys)
               | _, _ => None
               end
  end.

(** [z.object({ role: z.enum(["user", "assistant"]), content: z.string() })] *)
Definition parse_turn (v : jval) : option (jsstring * jsstring) :=
  match v with
  | JObj fs =>
      match assoc_last (js "role") fs, assoc_last (js "content") fs with
      | Some (JStr r), Some (JStr c) =>
          if bool_decide (r = js "user") || bool_decide (r = js "assistant")
          then Some (r, c) else None
      | _, _ => None
      end
  | _ => None
  end.

(** [chatRequestSchema.parse(req.body)]; [None] is the thrown [ZodError].
    The body is [undefined] ([None]) or the value [express.json] parsed. *)
Definition chatRequestSchema_parse (body : option jval) : option chatRequest :=
  match body with
  | Some (JObj fs) =>
      let msg := match assoc_last (js "message") fs with
                 | Some (JStr s) => match s with [] => None | _ => Some s end
                 | _ => None
                 end in
      let hist := match assoc_last (js "conversationHistory") fs with
                  | None => Some None
                  | Some (JArr l) => option_map Some (all_some parse_turn l)
                  | Some _ => None
                  end in
      let cid := match assoc_last (js "conversationId") fs with
                 | None => Some None
                 | Some (JStr s) => Some (Some s)
                 | Some _ => None
                 end in
      match msg, hist, cid with
      | Some m, Some h, Some c => Some (mkChatRequest m h c)
      | _, _, _ => None
      end
  | _ => None
  end.

(** The [messages] array sent upstream, as (role, content) pairs; the
    system prompt text is elided to its role. *)
Definition build_messages (req : chatRequest) : list (jsstring * jsstring) :=
  (js "system", js "<systemPrompt>")
    :: default [] (conversationHistory req) ++ [(js "user", message req)].

(** What [fetch] resolves to: a status and, when [response.body] exists,
    the decoded chunks its reader yields. *)
Record upstream_response := mkResponse {
  status : Z;
  body : option (list jsstring)
}.

Definition response_ok (r : upstream_response) : bool :=
  (200 <=? status r) && (status r <=? 299).

(** The replies of the route. *)
Inductive reply :=
| Busy503            (** 503 [{ error: "Server is busy...", rateLimited: true }] *)
| NotConfigured500   (** 500 [{ error: "OpenRouter API key not configured" }] *)
| UpstreamError (code : Z)  (** [response.status] with the generic error body *)
| ReadFailed500      (** 500 [{ error: "Failed to read AI response" }] *)
| BadRequest400      (** the outer [catch] with headers not yet sent *)
| EventStream (events : list event).

(** The successive [Date.now()] readings of one request. *)
Record clock := mkClock {
  t_select : Z;   (** first [getNextAvailableKey] *)
  t_check : Z;    (** [allKeysRateLimited] *)
  t_mark : Z;     (** [markKeyAsRateLimited] *)
  t_retry : Z     (** second [getNextAvailableKey] *)
}.

(** [!apiKey] *)
Definition no_key (k : option string) : bool :=
  match k with
  | None => true
  | Some s => String.eqb s EmptyString
  end.

(** The [/api/chat] handler.  [upstream key messages] is the result of the
    [fetch] made with [key] ([None] when it rejects).  Returns the reply,
    the manager after the request, and the keys [fetch] was called with. *)
Definition chat (c : clock)
    (upstream : string -> list (jsstring * jsstring) -> option upstream_response)
    (reqBody : option jval) (m : manager) : reply * manager * list string :=
  match chatRequestSchema_parse reqBody with
  | None => (BadRequest400, m, [])
  | Some req =>
    let messages := build_messages req in
    let '(apiKey, m1) := getNextAvailableKey (t_select c) m in
    match apiKey with
    | Some k =>
      if no_key apiKey then
        ((if allKeysRateLimited (t_check c) m1 then Busy503 else NotConfigured500), m1, [])
      else
      match upstream k messages with
      | None => (BadRequest400, m1, [k])
      | Some r =>
        if negb (response_ok r) then
          if status r =? 429 then
            let m2 := markKeyAsRateLimited (t_mark c) k default_duration m1 in
            let '(nextKey, m3) := getNextAvailableKey (t_retry c) m2 in
            if no_key nextKey then (Busy503, m3, [k])
            else (UpstreamError (status r), m3, [k])
          else (UpstreamError (status r), m1, [k])
        else
          match body r with
          | None => (ReadFailed500, m1, [k])
          | Some reads => (EventStream (relay reads), m1, [k])
          end
      end
    | None =>
      ((if allKeysRateLimited (t_check c) m1 then Busy503 else NotConfigured500), m1, [])
    end
  end.

End Chat.

(** ** The browser client of [ChatPage] *)
Module Client.
Import Json Relay.

(** [WhiteSpace] and [LineTerminator] code units removed by
    [String.prototype.trim]. *)
Definition js_space (c : N) : bool :=
  (c =? 9)%N || (c =? 10)%N || (c =? 11)%N || (c =? 12)%N || (c =? 13)%N ||
  (c =? 32)%N || (c =? 160)%N || (c =? 5760)%N ||
  ((8192 <=? c)%N && (c <=? 8202)%N) ||
  (c =? 8232)%N || (c =? 8233)%N || (c =? 8239)%N || (c =? 8287)%N ||
  (c =? 12288)%N || (c =? 65279)%N.

Fixpoint drop_spaces (s : jsstring) : jsstring :=
  match s with
  | c :: s' => if js_space c then drop_spaces s' else s
  | [] => []
  end.

(** [s.trim()] *)
Definition trim (s : jsstring) : jsstring := rev (drop_spaces (rev (drop_spaces s))).

(** [firstMessage.slice(0, 50) + (firstMessage.length > 50 ? "..." : empty)]
    in [createNewConversation]. *)
Definition conversation_title (firstMessage : jsstring) : jsstring :=
  take 50 firstMessage ++ (if (50 <? length firstMessage)%nat then js "..." else []).

(** [getSessionId()] over the [localStorage] map; [fresh] is what
    [nanoid()] returns. *)
Definition getSessionId (store : gmap string jsstring) (fresh : jsstring)
    : jsstring * gmap string jsstring :=
  match store !! "sessionId"%string with
  | Some ((_ :: _) as sessionId) => (sessionId, store)
  | _ => (fresh, <["sessionId"%string := fresh]> store)
  end.

(** The [ChatPage] state [handleSend] reads; a message is (role, content). *)
Record client_state := mkClientState {
  messages : list (jsstring * jsstring);
  input : jsstring;
  isLoading : bool;
  tosAccepted : bool;
  currentConversationId : option jsstring
}.

(** The conversation id [handleSend] ends up with: the current one, else
    what [createNewConversation] returned ([created], [null] as [None]). *)
Definition send_conversation_id (st : client_state) (created : option jsstring)
    : option jsstring :=
  match currentConversationId st with
  | Some ((_ :: _) as id) => Some id
  | _ => created
  end.

(** The body [handleSend] posts to [/api/chat], as the value the server's
    JSON body parser rebuilds from [JSON.stringify] (strings, arrays,
    objects and [null] only); [None] when the guard
    [!input.trim() || isLoading || !tosAccepted] returns early.  The
    history is the [messages] captured before the new message is added. *)
Definition handleSend_body (st : client_state) (created : option jsstring) : option jval :=
  let content := trim (input st) in
  if bool_decide (content = []) || isLoading st || negb (tosAccepted st) then None
  else Some (JObj
    [(js "message", JStr content);
     (js "conversationHistory",
        JArr (map (fun rc => JObj [(js "role", JStr rc.1); (js "content", JStr rc.2)])
                  (messages st)));
     (js "conversationId",
        match send_conversation_id st created with
        | Some id => JStr id
        | None => JNull
        end)]).

(** Lower-case hexadecimal digit. *)
Definition hex_digit (n : N) : N := if (n <? 10)%N then (48 + n)%N else (87 + n)%N.

Definition unicode_escape (c : N) : jsstring :=
  [92%N; 117%N; hex_digit (c / 4096 mod 16); hex_digit (c / 256 mod 16);
   hex_digit (c / 16 mod 16); hex_digit (c mod 16)].

Definition is_high (c : N) : bool := (55296 <=? c)%N && (c <=? 56319)%N.
Definition is_low (c : N) : bool := (56320 <=? c)%N && (c <=? 57343)%N.

(** [QuoteJSONString] on one code unit that is not part of a surrogate
    pair. *)
Definition escape_unit (c : N) : jsstring :=
  if (c =? 8)%N then [92%N; 98%N]
  else if (c =? 9)%N then [92%N; 116%N]
  else if (c =? 10)%N then [92%N; 110%N]
  else if (c =? 12)%N then [92%N; 102%N]
  else if (c =? 13)%N then [92%N; 114%N]
  else if (c =? 34)%N then [92%N; 34%N]
  else if (c =? 92)%N then [92%N; 92%N]
  else if (c <? 32)%N || is_high c || is_low c then unicode_escape c
  else [c].

(** The characters between the quotes of [JSON.stringify(s)]; a surrogate
    pair is copied, a lone surrogate escaped. *)
Fixpoint quote_body (s : jsstring) : jsstring :=
  match s with
  | [] => []
  | c :: r =>
      match r with
      | d :: r' => if is_high c && is_low d then c :: d :: quote_body r'
                   else escape_unit c ++ quote_body r
      | [] => escape_unit c
      end
  end.

(** [JSON.stringify(s)] for a string [s]. *)
Definition quote (s : jsstring) : jsstring := 34%N :: quote_body s ++ [34%N].

(** What the server's [res.write] sends for a string [content] and for the
    end of stream. *)
Definition content_frame (content : jsstring) : jsstring :=
  jq "data: {'content':" ++ quote content ++ js "}" ++ [10%N; 10%N].

Definition done_frame : jsstring := js "data: [DONE]" ++ [10%N; 10%N].

(** One line of the [handleSend] read loop: the value
    [assistantMessage.content += parsed.content] appends, if any. *)
Definition client_line (line : jsstring) : option jval :=
  if starts_with (js "data: ") line then
    let data := drop 6 line in
    if bool_decide (data = js "[DONE]") then None
    else match JSON_parse data with
         | None => None
         | Some JNull => None
         | Some parsed =>
             let c := get_named parsed (js "content") in
             if truthy c then c else None
         end
  else None.

(** The values appended to the assistant message over the reads. *)
Fixpoint client_read (reads : list jsstring) : list jval :=
  match reads with
  | [] => []
  | chunk :: rest =>
      flat_map (fun l => match client_line l with Some v => [v] | None => [] end)
               (split_nl chunk) ++ client_read rest
  end.

End Client.

(** * Properties of the key manager *)
Module KeyManagerFacts.
Import KeyManager.

Lemma scan_some (m : manager) (now : Z) (n : nat) :
  forall i x, scan m now i n = Some x ->
  exists j, (i <= j < i + n)%nat /\
    x = ((currentKeyIndex m + j) mod length (keys m))%nat /\
    rateLimitedUntil m x <= now /\
    (forall j', (i <= j' < j)%nat ->
       now < rateLimitedUntil m ((currentKeyIndex m + j') mod length (keys m))).
Proof.
  induction n as [|n IH]; intros i x H; simpl in H; [discriminate|].
  destruct (Z.leb_spec (rateLimitedUntil m ((currentKeyIndex m + i) mod length (keys m))) now) as [Hle|Hgt].
  - injection H as <-. exists i. split; [lia|]. split; [done|]. split; [done|]. lia.
  - destruct (IH (S i) x H) as (j & Hj & -> & Hu & Hbefore).
    exists j. split; [lia|]. split; [done|]. split; [done|].
    intros j' Hj'. destruct (decide (j' = i)) as [->|Hne]; [done|].
    apply Hbefore. lia.
Qed.

Lemma scan_none (m : manager) (now : Z) (n : nat) :
  forall i, scan m now i n = None ->
  forall j, (i <= j < i + n)%nat ->
    now < rateLimitedUntil m ((currentKeyIndex m + j) mod length (keys m)).
Proof.
  induction n as [|n IH]; intros i H j Hj; [lia|]. simpl in H.
  destruct (Z.leb_spec (rateLimitedUntil m ((currentKeyIndex m + i) mod length (keys m))) now) as [Hle|Hgt];
    [discriminate|].
  destruct (decide (j = i)) as [->|Hne]; [done|].
  apply (IH (S i)); [done|lia].
Qed.

Lemma mod_lt_len (c n : nat) : (0 < n)%nat -> (c mod n < n)%nat.
Proof. intros. apply Nat.mod_upper_bound. lia. Qed.

Lemma lookup_keys_mod (m : manager) (c : nat) :
  (0 < length (keys m))%nat -> is_Some (keys m !! (c mod length (keys m))%nat).
Proof. intros H. apply lookup_lt_is_Some_2. by apply mod_lt_len. Qed.

(** Shape of every result of [getNextAvailableKey]. *)
Lemma getNext_some (now : Z) (m m' : manager) (k : string) :
  getNextAvailableKey now m = (Some k, m') ->
  exists i, keys m !! i = Some k /\ rateLimitedUntil m i <= now /\
    m' = set_cursor m ((i + 1) mod length (keys m))%nat.
Proof.
  unfold getNextAvailableKey.
  destruct (Nat.eqb_spec (length (keys m)) 0); [congruence|].
  destruct (scan m now 0 (length (keys m))) as [x|] eqn:Hs; [|congruence].
  intros [= Hk <-]. destruct (scan_some _ _ _ _ _ Hs) as (j & _ & _ & Hu & _).
  by exists x.
Qed.

Lemma getNext_frame (now : Z) (m : manager) :
  keys (getNextAvailableKey now m).2 = keys m /\
  keyRateLimitedUntil (getNextAvailableKey now m).2 = keyRateLimitedUntil m.
Proof.
  unfold getNextAvailableKey.
  destruct (Nat.eqb (length (keys m)) 0); [done|].
  by destruct (scan m now 0 (length (keys m))).
Qed.

Lemma indexOf_lookup (k : string) (l : list string) (i : nat) :
  indexOf k l = Some i -> l !! i = Some k /\ forall j, (j < i)%nat -> l !! j <> Some k.
Proof.
  revert i. induction l as [|x l IH]; intros i H; simpl in H; [discriminate|].
  destruct (String.eqb_spec x k) as [->|Hne].
  - injection H as <-. split; [done|]. intros; lia.
  - destruct (indexOf k l) as [i'|] eqn:Hi; simpl in H; [|discriminate].
    injection H as <-. destruct (IH i' eq_refl) as [Hl Hb]. split; [done|].
    intros [|j] Hj; simpl; [congruence|]. apply Hb. lia.
Qed.

Lemma indexOf_none (k : string) (l : list string) :
  indexOf k l = None -> forall i, l !! i <> Some k.
Proof.
  induction l as [|x l IH]; simpl; intros H i; [done|].
  destruct (String.eqb_spec x k); [discriminate|].
  destruct (indexOf k l); [discriminate|].
  destruct i; simpl; [congruence|]. by apply IH.
Qed.

(** [(c + a) mod n] for [a < n]: one wrap at most. *)
Lemma rot_mod (c a n : nat) :
  (0 < n)%nat -> (a < n)%nat ->
  ((c + a) mod n = if c mod n + a <? n then c mod n + a else c mod n + a - n)%nat.
Proof.
  intros Hn Ha. rewrite <- Nat.Div0.add_mod_idemp_l.
  pose proof (mod_lt_len c n Hn).
  destruct (Nat.ltb_spec (c mod n + a) n).
  - by apply Nat.mod_small.
  - replace (c mod n + a)%nat with ((c mod n + a - n) + 1 * n)%nat at 1 by lia.
    rewrite Nat.Div0.mod_add. apply Nat.mod_small. lia.
Qed.

Lemma rotation_permutation (c n : nat) :
  (0 < n)%nat -> Permutation (map (fun j => (c + j) mod n)%nat (seq 0 n)) (seq 0 n).
Proof.
  intros Hn. apply NoDup_Permutation_bis.
  - apply Injective_map_NoDup_in; [|apply seq_NoDup].
    intros x y Hx Hy. apply in_seq in Hx, Hy.
    rewrite (rot_mod c x n), (rot_mod c y n) by lia.
    destruct (Nat.ltb_spec (c mod n + x) n), (Nat.ltb_spec (c mod n + y) n); lia.
  - by rewrite length_map.
  - intros i Hi. apply in_map_iff in Hi as (j & <- & Hj).
    apply in_seq. pose proof (mod_lt_len (c + j) n Hn). lia.
Qed.

Lemma getNext_fresh (now : Z) (m : manager) :
  keyRateLimitedUntil m = ∅ -> 0 <= now -> (0 < length (keys m))%nat ->
  getNextAvailableKey now m =
    (keys m !! (currentKeyIndex m mod length (keys m))%nat,
     set_cursor m ((currentKeyIndex m mod length (keys m) + 1) mod length (keys m))%nat).
Proof.
  intros Ht Hnow Hn. unfold getNextAvailableKey.
  destruct (Nat.eqb_spec (length (keys m)) 0); [lia|].
  destruct (length (keys m)) as [|len] eqn:Hlen; [lia|]. simpl.
  unfold rateLimitedUntil at 1. rewrite Ht, lookup_empty. simpl.
  rewrite Nat.add_0_r. destruct (Z.leb_spec 0 now); [|lia]. by rewrite Hlen.
Qed.

Lemma run_next_fresh (ts : list Z) :
  forall m : manager,
  keyRateLimitedUntil m = ∅ -> Forall (fun t => 0 <= t) ts -> (0 < length (keys m))%nat ->
  (run_next ts m).1 =
    map (fun j => keys m !! ((currentKeyIndex m + j) mod length (keys m))%nat)
        (seq 0 (length ts)).
Proof.
  induction ts as [|t ts IH]; intros m Ht Hts Hn; [done|].
  inversion Hts as [|? ? Ht0 Hts']; subst. simpl.
  rewrite getNext_fresh by done.
  set (m1 := set_cursor m _).
  destruct (run_next ts m1) as [ks m2] eqn:Hr. simpl.
  rewrite Nat.add_0_r. f_equal.
  assert (ks = (run_next ts m1).1) as -> by now rewrite Hr.
  rewrite (IH m1) by done. rewrite <- seq_shift, map_map.
  apply map_ext. intros j. simpl. f_equal.
  rewrite Nat.Div0.add_mod_idemp_l.
  rewrite <- Nat.add_assoc, Nat.Div0.add_mod_idemp_l. f_equal.
Qed.

Lemma rateLimitedUntil_mark (now d : Z) (key : string) (m : manager) (j : nat) :
  rateLimitedUntil (markKeyAsRateLimited now key d m) j =
    match indexOf key (keys m) with
    | Some i => if decide (i = j) then now + d else rateLimitedUntil m j
    | None => rateLimitedUntil m j
    end.
Proof.
  unfold markKeyAsRateLimited, rateLimitedUntil.
  destruct (indexOf key (keys m)) as [i|]; [|done]. simpl.
  destruct (decide (i = j)) as [->|Hne].
  - by rewrite lookup_insert_eq.
  - by rewrite lookup_insert_ne.
Qed.

Lemma keys_mark (now d : Z) (key : string) (m : manager) :
  keys (markKeyAsRateLimited now key d m) = keys m.
Proof. unfold markKeyAsRateLimited. by destruct (indexOf key (keys m)). Qed.

End KeyManagerFacts.

(** * The claims about the key manager *)
Module KeyManagerClaims.
Import KeyManager KeyManagerFacts.

Definition pool3 : manager := mkManager ["a"; "b"; "c"] 1 ∅.

(** C4: [getNextAvailableKey] returns the first usable key scanning from
    the cursor, and moves the cursor just past it modulo the pool size
    (or returns null and changes nothing); with no penalty recorded, as
    many calls as there are keys return every pool index exactly once, in
    rotation order from the cursor. *)
Theorem getNextAvailableKey_round_robin :
  (forall (m : manager) (now : Z),
     let N := length (keys m) in
     let at_ j := ((currentKeyIndex m + j) mod N)%nat in
     match getNextAvailableKey now m with
     | (Some k, m') =>
         exists j, (j < N)%nat /\
           (forall j', (j' < j)%nat -> now < rateLimitedUntil m (at_ j')) /\
           rateLimitedUntil m (at_ j) <= now /\
           keys m !! at_ j = Some k /\
           m' = set_cursor m ((at_ j + 1) mod N)%nat
     | (None, m') =>
         m' = m /\ forall j, (j < N)%nat -> now < rateLimitedUntil m (at_ j)
     end) /\
  (forall (m : manager) (ts : list Z),
     let N := length (keys m) in
     let order := map (fun j => (currentKeyIndex m + j) mod N)%nat (seq 0 N) in
     keyRateLimitedUntil m = ∅ -> Forall (fun t => 0 <= t) ts -> length ts = N ->
     (run_next ts m).1 = map (fun i => keys m !! i) order /\
     Permutation order (seq 0 N)).
Proof.
  split.
  - intros m now N at_. unfold getNextAvailableKey.
    destruct (Nat.eqb_spec (length (keys m)) 0) as [H0|Hn0].
    + split; [done|]. subst N. lia.
    + destruct (scan m now 0 (length (keys m))) as [x|] eqn:Hs.
      * destruct (scan_some _ _ _ _ _ Hs) as (j & Hj & -> & Hu & Hb).
        destruct (lookup_keys_mod m (currentKeyIndex m + j) ltac:(lia)) as [k Hk].
        rewrite Hk. exists j. split; [subst N; lia|].
        split; [intros j' Hj'; apply Hb; lia|]. done.
      * split; [done|]. intros j Hj. apply (scan_none _ _ _ 0 Hs). subst N. lia.
  - intros m ts N order Ht Hts Hlen.
    destruct (Nat.eq_dec N 0%nat) as [H0|Hn0].
    + subst order. rewrite H0 in *. destruct ts; [|discriminate]. done.
    + split.
      * rewrite run_next_fresh by (done || lia). rewrite Hlen. subst order.
        by rewrite map_map.
      * apply rotation_permutation. lia.
Qed.

Lemma getNextAvailableKey_round_robin_witness :
  (run_next [5; 6; 7] pool3).1 = [Some "b"; Some "c"; Some "a"]%string /\
  Permutation [1; 2; 0]%nat (seq 0 3).
Proof.
  destruct (proj2 getNextAvailableKey_round_robin pool3 [5; 6; 7]) as [H1 H2].
  - reflexivity.
  - repeat constructor; lia.
  - reflexivity.
  - split; [exact H1 | exact H2].
Defined.

(** C6: for a key in the pool, [markKeyAsRateLimited key duration] at time
    [now] sets the entry of the key's first index to [now + duration]
    whatever it held before, even a later expiry. *)
Theorem markKeyAsRateLimited_last_write_wins
    (now duration : Z) (key : string) (m : manager) (i : nat) :
  indexOf key (keys m) = Some i ->
  keyRateLimitedUntil (markKeyAsRateLimited now key duration m) =
    <[i := now + duration]> (keyRateLimitedUntil m) /\
  rateLimitedUntil (markKeyAsRateLimited now key duration m) i = now + duration.
Proof.
  intros Hi. unfold markKeyAsRateLimited. rewrite Hi. simpl. split; [done|].
  unfold rateLimitedUntil. simpl. by rewrite lookup_insert_eq.
Qed.

Definition pool_limited : manager :=
  mkManager ["a"; "b"] 0 (<[0%nat := 500000]> ∅).

Lemma markKeyAsRateLimited_last_write_wins_witness :
  rateLimitedUntil (markKeyAsRateLimited 1000 "a" 60000 pool_limited) 0 = 61000.
Proof.
  exact (proj2 (markKeyAsRateLimited_last_write_wins 1000 60000 "a" pool_limited 0
                  eq_refl)).
Defined.

(** C9: [getNextAvailableKey] changes only the cursor;
    [markKeyAsRateLimited] changes only the entry at the first index of
    the key, and nothing when the key is not in the pool;
    [allKeysRateLimited] changes nothing. *)
Theorem manager_frame (now duration : Z) (key : string) (m : manager) (ops : list op) :
  keys (getNextAvailableKey now m).2 = keys m /\
  keyRateLimitedUntil (getNextAvailableKey now m).2 = keyRateLimitedUntil m /\
  match indexOf key (keys m) with
  | Some i =>
      keys m !! i = Some key /\ (forall j, (j < i)%nat -> keys m !! j <> Some key) /\
      markKeyAsRateLimited now key duration m =
        mkManager (keys m) (currentKeyIndex m)
                  (<[i := now + duration]> (keyRateLimitedUntil m))
  | None =>
      (forall j, keys m !! j <> Some key) /\
      markKeyAsRateLimited now key duration m = m
  end /\
  run (OpAll now :: ops) m = run ops m.
Proof.
  destruct (getNext_frame now m) as [Hk Ht].
  split; [done|]. split; [done|]. split; [|done].
  unfold markKeyAsRateLimited.
  destruct (indexOf key (keys m)) as [i|] eqn:Hi.
  - destruct (indexOf_lookup _ _ _ Hi) as [Hl Hb]. auto.
  - split; [by apply indexOf_none|done].
Qed.

End KeyManagerClaims.

(** * Penalties and the key returned *)
Module PenaltyClaims.
Import KeyManager KeyManagerFacts.

Section Penalty.
Variables (t d : Z) (k : string) (pool : list string).

(** Every index holding [k] is penalized until at least [t + d]. *)
Definition guarded (m : manager) : Prop :=
  keys m = pool /\ forall i, pool !! i = Some k -> t + d <= rateLimitedUntil m i.

(** No later [markKeyAsRateLimited k] sets an earlier expiry. *)
Definition no_shorter_mark (o : op) : Prop :=
  match o with
  | OpMark t' k' d' => k' = k -> t + d <= t' + d'
  | _ => True
  end.

Hypothesis pool_unique : forall i j, pool !! i = Some k -> pool !! j = Some k -> i = j.

Lemma guarded_run (ops : list op) :
  Forall no_shorter_mark ops ->
  forall m, guarded m ->
  forall s r, In (s, r) (run ops m).1 -> s < t + d -> r <> Some k.
Proof.
  induction ops as [|o ops IH]; intros Hops m [Hkeys Hg] s r Hin Hs; [done|].
  inversion Hops as [|? ? Ho Hops']; subst.
  destruct o as [now|now key d'|now]; simpl in Hin.
  - destruct (getNextAvailableKey now m) as [r0 m1] eqn:Hn.
    destruct (run ops m1) as [rs m2] eqn:Hr. simpl in Hin.
    destruct Hin as [[= <- <-]|Hin].
    + intros ->. destruct (getNext_some _ _ _ _ Hn) as (i & Hi & Hu & _).
      rewrite Hkeys in Hi. specialize (Hg i Hi). lia.
    + assert (Hin' : In (s, r) (run ops m1).1) by (rewrite Hr; done).
      refine (IH Hops' m1 _ s r Hin' Hs).
      destruct (getNext_frame now m) as [Hk1 Ht1]. rewrite Hn in Hk1, Ht1.
      simpl in Hk1, Ht1. split; [congruence|].
      intros i Hi. unfold rateLimitedUntil. rewrite Ht1. by apply Hg.
  - refine (IH Hops' _ _ s r Hin Hs). split; [by rewrite keys_mark|].
    intros i Hi. rewrite rateLimitedUntil_mark.
    destruct (indexOf key (keys m)) as [i'|] eqn:Hi'; [|by apply Hg].
    destruct (decide (i' = i)) as [<-|Hne]; [|by apply Hg].
    destruct (indexOf_lookup _ _ _ Hi') as [Hl _]. rewrite Hkeys, Hi in Hl.
    injection Hl as ->. by apply Ho.
  - exact (IH Hops' m (conj Hkeys Hg) s r Hin Hs).
Qed.

End Penalty.

(** C5 (as the code has it): after [markKeyAsRateLimited k d] at time [t],
    for a key that occurs once in the pool, and as long as no later
    [markKeyAsRateLimited k] sets an expiry before [t + d], no
    [getNextAvailableKey] call made at a time before [t + d] returns [k]. *)
Theorem penalized_key_not_returned (t d : Z) (k : string) (m : manager) (ops : list op) :
  (forall i j, keys m !! i = Some k -> keys m !! j = Some k -> i = j) ->
  Forall (no_shorter_mark t d k) ops ->
  forall s r, In (s, r) (run ops (markKeyAsRateLimited t k d m)).1 ->
  s < t + d -> r <> Some k.
Proof.
  intros Huniq Hops. apply (guarded_run t d k (keys m) Huniq ops Hops).
  split; [apply keys_mark|].
  intros i Hi. rewrite rateLimitedUntil_mark.
  destruct (indexOf k (keys m)) as [i'|] eqn:Hi'.
  - destruct (indexOf_lookup _ _ _ Hi') as [Hl _].
    rewrite (Huniq i' i Hl Hi), decide_True by done. lia.
  - exfalso. exact (indexOf_none _ _ Hi' i Hi).
Qed.

Definition pool_ab : manager := mkManager ["a"; "b"] 0 ∅.
Definition ops_ab : list op := [OpNext 10; OpMark 20 "b" 5; OpNext 30].

Lemma penalized_key_not_returned_witness :
  (run ops_ab (markKeyAsRateLimited 0 "a" 60000 pool_ab)).1 =
    [(10, Some "b"); (30, Some "b")]%string /\
  Some "b"%string <> Some "a"%string.
Proof.
  split; [reflexivity|].
  refine (penalized_key_not_returned 0 60000 "a" pool_ab ops_ab _ _ 10 (Some "b"%string) _ _).
  - intros [|[|i]] [|[|j]] Hi Hj; cbn in Hi, Hj; try discriminate; try reflexivity.
    all: try (injection Hi as Hi; discriminate Hi); try (injection Hj as Hj; discriminate Hj).
    all: destruct i; discriminate.
  - repeat constructor. simpl. discriminate.
  - simpl. left. reflexivity.
  - lia.
Defined.

(** C5 fails as stated: a key listed twice is penalized only at its first
    index; and a second, shorter penalty replaces the first. *)
Lemma penalized_key_returned_counterexample :
  (run [OpNext 10] (markKeyAsRateLimited 0 "a" 60000 (mkManager ["a"; "a"] 0 ∅))).1
    = [(10, Some "a"%string)] /\
  (run [OpMark 1 "a" 1; OpNext 5]
       (markKeyAsRateLimited 0 "a" 60000 (mkManager ["a"] 0 ∅))).1
    = [(5, Some "a"%string)] /\
  10 < 0 + 60000 /\ 5 < 0 + 60000.
Proof. repeat split; reflexivity. Qed.

End PenaltyClaims.

(** * The streaming loop *)
Module RelayFacts.
Import Json Relay.

Lemma relay_app (r1 r2 : list jsstring) : relay (r1 ++ r2) = relay r1 ++ relay r2.
Proof.
  induction r1 as [|r r1 IH]; simpl; [done|]. by rewrite IH, app_assoc.
Qed.

Lemma split_nl_nonempty (s : jsstring) : split_nl s <> [].
Proof.
  induction s as [|c s IH]; simpl; [done|].
  destruct (c =? 10)%N; [done|]. by destruct (split_nl s).
Qed.

(** A newline cuts the split in two. *)
Lemma split_nl_newline (a b : jsstring) :
  split_nl (a ++ 10%N :: b) = split_nl a ++ split_nl b.
Proof.
  induction a as [|c a IH]; simpl; [done|].
  destruct (c =? 10)%N; [by rewrite IH|].
  rewrite IH. destruct (split_nl a) as [|l ls] eqn:Ha; [by apply split_nl_nonempty in Ha|].
  done.
Qed.

Lemma process_line_empty : process_line [] = [].
Proof. reflexivity. Qed.

Lemma flat_map_process_app (l1 l2 : list jsstring) :
  flat_map process_line (l1 ++ l2) = flat_map process_line l1 ++ flat_map process_line l2.
Proof. by rewrite flat_map_app. Qed.

(** [data: x] parsed as [x]. *)
Lemma process_data_line (x : jsstring) :
  process_line (js "data: " ++ x) =
    if bool_decide (x = js "[DONE]") then [EvDone]
    else match JSON_parse x with
         | None => []
         | Some parsed =>
             match delta_content parsed with
             | None => []
             | Some content =>
                 if truthy content then
                   match content with Some v => [EvContent v] | None => [] end
                 else []
             end
         end.
Proof. reflexivity. Qed.

Lemma split_nl_no_newline (l : jsstring) : ~ In 10%N l -> split_nl l = [l].
Proof.
  induction l as [|c l IH]; simpl; intros Hn; [done|].
  destruct (N.eqb_spec c 10) as [->|Hc]; [tauto|].
  rewrite IH by tauto. done.
Qed.

Lemma process_line_events (line : jsstring) (v : jval) :
  In (EvContent v) (process_line line) -> truthy (Some v) = true.
Proof.
  unfold process_line.
  destruct (starts_with (js "data: ") line); [|done].
  case_bool_decide; [simpl; intuition congruence|].
  destruct (JSON_parse (drop 6 line)) as [parsed|]; [|done].
  destruct (delta_content parsed) as [content|]; [|done].
  destruct (truthy content) eqn:Ht; [|done].
  destruct content as [w|]; [|done]. simpl. intros [[= ->]|[]]. done.
Qed.

End RelayFacts.

(** * The claims about the streaming loop *)
Module RelayClaims.
Import Json Relay RelayFacts.

Definition nl : jsstring := [10%N].

(** One upstream read holding the single line [data: x]. *)
Definition data_read (x : jsstring) : jsstring := js "data: " ++ x ++ nl.

Lemma JSON_parse_DONE : JSON_parse (js "[DONE]") = None.
Proof. reflexivity. Qed.

Lemma relay_data_read (x : jsstring) :
  ~ In 10%N x -> relay [data_read x] = process_line (js "data: " ++ x).
Proof.
  intros Hx. unfold data_read, nl.
  assert (Hs : forall r, relay [r] = flat_map process_line (split_nl r))
    by (intros r; simpl; by rewrite app_nil_r).
  rewrite Hs, app_assoc, split_nl_newline, split_nl_no_newline.
  - simpl. by rewrite !app_nil_r.
  - rewrite in_app_iff. intros [H|H]; [|done]. simpl in H. intuition discriminate.
Qed.

Lemma data_line_content (g : jsstring) (v c : jval) :
  JSON_parse g = Some v -> delta_content v = Some (Some c) -> truthy (Some c) = true ->
  process_line (js "data: " ++ g) = [EvContent c].
Proof.
  intros Hg Hv Hc. rewrite process_data_line.
  rewrite bool_decide_false; [|intros ->; by rewrite JSON_parse_DONE in Hg].
  by rewrite Hg, Hv, Hc.
Qed.

(** C7: an upstream [data:] line that [JSON.parse] rejects yields no event
    and does not stop the loop: a bad line followed by two lines with
    content gives exactly those two content events, and whatever the reads
    before and after give. *)
Theorem malformed_fragment_skipped (pre post : list jsstring) (bad g1 g2 : jsstring)
    (v1 v2 c1 c2 : jval) :
  JSON_parse bad = None -> bad <> js "[DONE]" -> ~ In 10%N bad ->
  JSON_parse g1 = Some v1 -> delta_content v1 = Some (Some c1) ->
  truthy (Some c1) = true -> ~ In 10%N g1 ->
  JSON_parse g2 = Some v2 -> delta_content v2 = Some (Some c2) ->
  truthy (Some c2) = true -> ~ In 10%N g2 ->
  relay (pre ++ [data_read bad; data_read g1; data_read g2] ++ post) =
    relay pre ++ [EvContent c1; EvContent c2] ++ relay post.
Proof.
  intros Hb Hbd Hbn Hg1 Hv1 Hc1 Hn1 Hg2 Hv2 Hc2 Hn2.
  rewrite !relay_app. f_equal.
  change [data_read bad; data_read g1; data_read g2]
    with ([data_read bad] ++ [data_read g1] ++ [data_read g2]).
  rewrite !relay_app, !relay_data_read by done.
  rewrite (data_line_content g1 v1 c1), (data_line_content g2 v2 c2) by done.
  rewrite process_data_line, bool_decide_false, Hb by done. done.
Qed.

Definition bad_json : jsstring := jq "{'choices':[{".
Definition good_json (s : string) : jsstring :=
  jq ("{'choices':[{'delta':{'content':'" ++ s ++ "'}}]}").

Lemma malformed_fragment_skipped_witness :
  relay [data_read bad_json; data_read (good_json "Hel"); data_read (good_json "lo")] =
    [EvContent (JStr (js "Hel")); EvContent (JStr (js "lo"))].
Proof.
  exact (malformed_fragment_skipped [] [] bad_json (good_json "Hel") (good_json "lo")
    _ _ (JStr (js "Hel")) (JStr (js "lo"))
    eq_refl ltac:(discriminate) ltac:(vm_compute; intuition discriminate)
    eq_refl eq_refl eq_refl ltac:(vm_compute; intuition discriminate)
    eq_refl eq_refl eq_refl ltac:(vm_compute; intuition discriminate)).
Defined.

(** C10 (as the code has it): every content event carries a value that is
    truthy in JavaScript (a non-empty string, a nonzero number, [true], an
    array or an object), so never an empty string nor [null]; a [data:]
    line whose delta content is falsy ([undefined], [null], [false], [0],
    the empty string) yields no event. *)
Theorem content_events_truthy :
  (forall (reads : list jsstring) (v : jval),
     In (EvContent v) (relay reads) ->
     truthy (Some v) = true /\ v <> JStr [] /\ v <> JNull) /\
  (forall (line : jsstring) (parsed : jval) (c : option jval),
     starts_with (js "data: ") line = true ->
     JSON_parse (drop 6 line) = Some parsed ->
     delta_content parsed = Some c -> truthy c = false ->
     process_line line = []) /\
  truthy None = false /\ truthy (Some JNull) = false /\
  truthy (Some (JBool false)) = false /\ truthy (Some (JNum 0 0)) = false /\
  truthy (Some (JStr [])) = false.
Proof.
  split; [|split; [|repeat split]].
  - intros reads v. induction reads as [|r reads IH]; simpl; [done|].
    rewrite in_app_iff. intros [H|H]; [|by apply IH].
    apply in_flat_map in H as (line & _ & Hl).
    apply process_line_events in Hl.
    split; [done|]. split; intros ->; discriminate.
  - intros line parsed c Hs Hp Hd Ht. unfold process_line. rewrite Hs.
    rewrite bool_decide_false; [|intros Hdone; by rewrite Hdone, JSON_parse_DONE in Hp].
    by rewrite Hp, Hd, Ht.
Qed.

Definition line_with_content (c : string) : jsstring :=
  jq ("data: {'choices':[{'delta':{'content':" ++ c ++ "}}]}").

Lemma content_events_truthy_witness :
  process_line (line_with_content "''") = [] /\
  truthy (Some (JStr (js "x"))) = true.
Proof.
  split; [|reflexivity].
  exact (proj1 (proj2 content_events_truthy) (line_with_content "''")
           _ (Some (JStr [])) eq_refl eq_refl eq_refl eq_refl).
Defined.

(** C10 fails as stated: a delta whose content is an empty array, or a
    number, is forwarded as a content event that carries no string. *)
Lemma content_event_not_string_counterexample :
  relay [line_with_content "[]"] = [EvContent (JArr [])] /\
  relay [line_with_content "5"] = [EvContent (JNum 5 0)].
Proof. split; reflexivity. Qed.

(** C2 (as the code has it): each read is split on its own; when every
    read ends at a line boundary, the caller gets, in upstream order, the
    events of the upstream lines one by one: a content event per [data:]
    line with truthy delta content and a DONE per [data: [DONE]] line. *)
Theorem relay_line_aligned (reads : list jsstring) :
  Forall (fun r => exists l, r = l ++ nl) reads ->
  relay reads = flat_map process_line (split_nl (concat reads)).
Proof.
  induction 1 as [|r reads [l ->] _ IH]; [done|].
  simpl. rewrite IH. unfold nl.
  rewrite <- app_assoc. simpl. rewrite !split_nl_newline, !flat_map_process_app.
  change (flat_map process_line (split_nl [])) with (@nil event).
  by rewrite app_nil_r.
Qed.

Definition token_line : jsstring := jq "data: {'choices':[{'delta':{'content':'Hi'}}]}".

Lemma relay_line_aligned_witness :
  relay [token_line ++ nl; js "data: [DONE]" ++ nl] =
    [EvContent (JStr (js "Hi")); EvDone].
Proof.
  rewrite (relay_line_aligned [token_line ++ nl; js "data: [DONE]" ++ nl]).
  - reflexivity.
  - repeat constructor; eexists; reflexivity.
Defined.

(** C2 fails as stated: the line of the token [Hi] arrives in two reads;
    the first half fails [JSON.parse], the second does not start with
    [data: ], so the token is lost, while the same bytes in one read give
    it.  A stream without a [data: [DONE]] line gives no DONE event. *)
Lemma split_token_lost_counterexample :
  relay [jq "data: {'choices':[{'del";
         jq "ta':{'content':'Hi'}}]}" ++ nl;
         js "data: [DONE]" ++ nl] = [EvDone] /\
  relay [token_line ++ nl; js "data: [DONE]" ++ nl] =
    [EvContent (JStr (js "Hi")); EvDone] /\
  relay [token_line ++ nl] = [EvContent (JStr (js "Hi"))].
Proof. repeat split; reflexivity. Qed.

End RelayClaims.

(** * The claims about the [/api/chat] route *)
Module ChatClaims.
Import KeyManager Json Relay Chat RelayClaims.

Definition clock0 : clock := mkClock 1000 1000 1001 1001.
Definition body_hi : option jval := JSON_parse (jq "{'message':'hi'}").
Definition body_empty : option jval := JSON_parse (jq "{'message':''}").

(** Upstream answers 200 with one token to every key. *)
Definition upstream_ok (key : string) (msgs : list (jsstring * jsstring))
    : option upstream_response :=
  Some (mkResponse 200 (Some [token_line ++ nl])).

(** Upstream answers 429 to [k1] and 200 with one token to any other key. *)
Definition upstream_429_k1 (key : string) (msgs : list (jsstring * jsstring))
    : option upstream_response :=
  if String.eqb key "k1" then Some (mkResponse 429 (Some []))
  else Some (mkResponse 200 (Some [token_line ++ nl])).

Definition two_keys : manager := mkManager ["k1"; "k2"] 0 ∅.
Definition no_keys : manager := mkManager [] 0 ∅.

Lemma chat_at_most_one_fetch (c : clock)
    (upstream : string -> list (jsstring * jsstring) -> option upstream_response)
    (reqBody : option jval) (m : manager) :
  (length (chat c upstream reqBody m).2 <= 1)%nat.
Proof.
  unfold chat.
  destruct (chatRequestSchema_parse reqBody) as [req|]; simpl; [|lia].
  destruct (getNextAvailableKey (t_select c) m) as [[k|] m1]; simpl; [|lia].
  destruct (String.eqb k EmptyString); simpl; [lia|].
  destruct (upstream k (build_messages req)) as [r|]; simpl; [|lia].
  destruct (negb (response_ok r)).
  - destruct (status r =? 429).
    + destruct (getNextAvailableKey (t_retry c) _) as [nk m3].
      destruct (no_key nk); simpl; lia.
    + simpl. lia.
  - destruct (body r); simpl; lia.
Qed.

(** C1 (code_bug): with two fresh keys and a 429 on the first, the route
    penalizes [k1], takes [k2] from the manager, and then answers the 429
    as a generic upstream error without calling upstream again; no request
    of the route ever calls upstream more than once.  With [k1] alone the
    429 gives the 503 [rateLimited] reply, as the claim says. *)
Theorem chat_429_no_retry :
  chat clock0 upstream_429_k1 body_hi two_keys =
    (UpstreamError 429, mkManager ["k1"; "k2"] 0 (<[0%nat := 61001]> ∅), ["k1"%string]) /\
  chat clock0 upstream_429_k1 body_hi (mkManager ["k1"] 0 ∅) =
    (Busy503, mkManager ["k1"] 0 (<[0%nat := 61001]> ∅), ["k1"%string]) /\
  (forall c upstream reqBody m, (length (chat c upstream reqBody m).2 <= 1)%nat).
Proof.
  split; [reflexivity|]. split; [reflexivity|].
  intros. apply chat_at_most_one_fetch.
Qed.

(** C3 (code_bug): with no key configured, [getNextAvailableKey] returns
    null and [allKeysRateLimited] holds vacuously ([[].every] is true), so
    the route answers 503 with [rateLimited] instead of the
    "not configured" 500. *)
Theorem chat_no_keys_busy :
  chat clock0 upstream_ok body_hi no_keys = (Busy503, no_keys, []) /\
  allKeysRateLimited 1000 no_keys = true.
Proof. split; reflexivity. Qed.

(** C8: a body that fails [chatRequestSchema] is answered 400 before the
    key manager is called: the manager is returned unchanged and upstream
    is never called. *)
Theorem invalid_request_rejected (c : clock)
    (upstream : string -> list (jsstring * jsstring) -> option upstream_response)
    (reqBody : option jval) (m : manager) :
  chatRequestSchema_parse reqBody = None ->
  chat c upstream reqBody m = (BadRequest400, m, []).
Proof. intros H. unfold chat. by rewrite H. Qed.

Lemma invalid_request_rejected_witness :
  chat clock0 upstream_ok body_empty two_keys = (BadRequest400, two_keys, []).
Proof.
  exact (invalid_request_rejected clock0 upstream_ok body_empty two_keys eq_refl).
Defined.

End ChatClaims.

(** * Further properties of the key manager *)
Module KeyManagerExtras.
Import KeyManager KeyManagerFacts.

(** [getNextAvailableKey] returns null exactly when [allKeysRateLimited]
    holds at the same instant, for every pool, the empty one included. *)
Theorem getNext_null_iff_all_limited (now : Z) (m : manager) :
  (getNextAvailableKey now m).1 = None <-> allKeysRateLimited now m = true.
Proof.
  unfold getNextAvailableKey, allKeysRateLimited.
  destruct (Nat.eqb_spec (length (keys m)) 0) as [H0|Hn0].
  - rewrite H0. simpl. tauto.
  - destruct (scan m now 0 (length (keys m))) as [x|] eqn:Hs.
    + destruct (scan_some _ _ _ _ _ Hs) as (j & Hj & -> & Hu & _).
      destruct (lookup_keys_mod m (currentKeyIndex m + j) ltac:(lia)) as [k Hk].
      simpl. rewrite Hk. split; [discriminate|].
      intros Hall. apply forallb_forall with
        (x := ((currentKeyIndex m + j) mod length (keys m))%nat) in Hall.
      * apply Z.ltb_lt in Hall. lia.
      * apply in_seq. pose proof (mod_lt_len (currentKeyIndex m + j) (length (keys m))). lia.
    + simpl. split; [intros _|done].
      apply forallb_forall. intros i Hi. apply Z.ltb_lt.
      pose proof (rotation_permutation (currentKeyIndex m) (length (keys m)) ltac:(lia)) as Hp.
      apply (Permutation_in _ (Permutation_sym Hp)) in Hi.
      apply in_map_iff in Hi as (j & <- & Hj). apply in_seq in Hj.
      apply (scan_none _ _ _ 0 Hs). lia.
Qed.

Lemma run_cursor_valid (ops : list op) :
  forall m : manager,
  (currentKeyIndex m < length (keys m) \/ keys m = [])%nat ->
  keys (run ops m).2 = keys m /\
  (currentKeyIndex (run ops m).2 < length (keys m) \/ keys m = [])%nat.
Proof.
  induction ops as [|o ops IH]; intros m Hm; [done|].
  destruct o as [now|now key d|now]; simpl.
  - destruct (getNextAvailableKey now m) as [r m1] eqn:Hn.
    assert (Hk1 : keys m1 = keys m /\
                  (currentKeyIndex m1 < length (keys m) \/ keys m = [])%nat).
    { unfold getNextAvailableKey in Hn.
      destruct (Nat.eqb_spec (length (keys m)) 0) as [H0|Hn0].
      - injection Hn as _ <-. done.
      - destruct (scan m now 0 (length (keys m))) as [x|].
        + injection Hn as _ <-. simpl. split; [done|]. left. apply mod_lt_len. lia.
        + injection Hn as _ <-. done. }
    destruct Hk1 as [Hk1 Hc1].
    destruct (run ops m1) as [rs m2] eqn:Hr. simpl.
    destruct (IH m1 ltac:(by rewrite Hk1)) as [Hk2 Hc2]. rewrite Hr in Hk2, Hc2.
    simpl in *. rewrite Hk2, Hk1. rewrite Hk1 in Hc2. done.
  - destruct (IH (markKeyAsRateLimited now key d m)) as [Hk Hc];
      rewrite !keys_mark in *.
    + unfold markKeyAsRateLimited. by destruct (indexOf key (keys m)).
    + done.
  - by apply IH.
Qed.

(** Starting from [new APIKeyManager()], any interleaving of the
    manager's calls keeps the key list as loaded and the cursor a valid
    index into it (or 0 for an empty pool). *)
Theorem cursor_stays_in_range (env : string -> option string) (ops : list op) :
  keys (run ops (new_manager env)).2 = load_keys env /\
  (currentKeyIndex (run ops (new_manager env)).2 < length (load_keys env) \/
   load_keys env = [])%nat.
Proof.
  apply run_cursor_valid. simpl. destruct (load_keys env); simpl; [by right|left; lia].
Qed.




End KeyManagerExtras.

(** * Further properties of the [/api/chat] route and its streaming loop *)
Module ChatExtras.
Import KeyManager KeyManagerFacts KeyManagerExtras Json Relay RelayFacts Chat.






Lemma mark_table_congr (now d : Z) (k : string) (m1 m : manager) :
  keys m1 = keys m -> keyRateLimitedUntil m1 = keyRateLimitedUntil m ->
  keyRateLimitedUntil (markKeyAsRateLimited now k d m1) =
  keyRateLimitedUntil (markKeyAsRateLimited now k d m).
Proof.
  intros Hk Ht. unfold markKeyAsRateLimited. rewrite Hk.
  destruct (indexOf k (keys m)); simpl; by rewrite ?Ht.
Qed.

(** The route never changes the key list, and changes the rate-limit
    table only when the upstream call it made was answered 429: then the
    table is the one [markKeyAsRateLimited] gives for the key used. *)
Theorem chat_penalizes_only_on_429 (c : clock)
    (upstream : string -> list (jsstring * jsstring) -> option upstream_response)
    (reqBody : option jval) (m : manager) :
  keys (chat c upstream reqBody m).1.2 = keys m /\
  (keyRateLimitedUntil (chat c upstream reqBody m).1.2 = keyRateLimitedUntil m \/
   exists req k r,
     chatRequestSchema_parse reqBody = Some req /\
     (chat c upstream reqBody m).2 = [k] /\
     upstream k (build_messages req) = Some r /\ status r = 429 /\
     keyRateLimitedUntil (chat c upstream reqBody m).1.2 =
       keyRateLimitedUntil (markKeyAsRateLimited (t_mark c) k default_duration m)).
Proof.
  unfold chat.
  destruct (chatRequestSchema_parse reqBody) as [req|] eqn:Hreq; simpl; [|auto].
  pose proof (getNext_frame (t_select c) m) as [Hk1 Ht1].
  destruct (getNextAvailableKey (t_select c) m) as [[k|] m1]; simpl in *; [|auto].
  destruct (String.eqb k EmptyString); simpl; [auto|].
  destruct (upstream k (build_messages req)) as [r|] eqn:Hup; simpl; [|auto].
  destruct (negb (response_ok r)).
  - destruct (Z.eqb_spec (status r) 429) as [H429|].
    + pose proof (getNext_frame (t_retry c)
                    (markKeyAsRateLimited (t_mark c) k default_duration m1)) as [Hk3 Ht3].
      destruct (getNextAvailableKey (t_retry c) _) as [nk m3]. simpl in *.
      split.
      * destruct (no_key nk); simpl; by rewrite Hk3, keys_mark.
      * right. exists req, k, r.
        destruct (no_key nk); simpl; (split; [done|]); (split; [done|]);
          (split; [done|]); (split; [done|]); rewrite Ht3; by apply mark_table_congr.
    + simpl. auto.
  - destruct (body r); simpl; auto.
Qed.

Lemma getNext_none (now : Z) (m m' : manager) :
  getNextAvailableKey now m = (None, m') -> m' = m.
Proof.
  unfold getNextAvailableKey.
  destruct (Nat.eqb_spec (length (keys m)) 0); [congruence|].
  destruct (scan m now 0 (length (keys m))) as [x|] eqn:Hs; [|congruence].
  destruct (lookup_keys_mod m (currentKeyIndex m + 0) ltac:(lia)) as [k Hk].
  destruct (scan_some _ _ _ _ _ Hs) as (j & _ & -> & _).
  destruct (lookup_keys_mod m (currentKeyIndex m + j) ltac:(lia)) as [k' Hk'].
  rewrite Hk'. discriminate.
Qed.

(** When every key of a non-empty pool is penalized beyond the instant of
    the [allKeysRateLimited] check (taken no earlier than the selection),
    a valid request gets the 503 [rateLimited] reply, with no upstream call
    and the manager unchanged. *)
Theorem chat_all_limited_busy (c : clock)
    (upstream : string -> list (jsstring * jsstring) -> option upstream_response)
    (reqBody : option jval) (m : manager) (req : chatRequest) :
  chatRequestSchema_parse reqBody = Some req ->
  t_select c <= t_check c ->
  (forall i, (i < length (keys m))%nat -> t_check c < rateLimitedUntil m i) ->
  chat c upstream reqBody m = (Busy503, m, []).
Proof.
  intros Hreq Ht Hall. unfold chat. rewrite Hreq.
  assert (Hsel : allKeysRateLimited (t_select c) m = true).
  { apply forallb_forall. intros i Hi. apply in_seq in Hi. apply Z.ltb_lt.
    specialize (Hall i ltac:(lia)). lia. }
  apply getNext_null_iff_all_limited in Hsel.
  destruct (getNextAvailableKey (t_select c) m) as [[k|] m1] eqn:Hn; [discriminate|].
  apply getNext_none in Hn as ->.
  assert (Hchk : allKeysRateLimited (t_check c) m = true).
  { apply forallb_forall. intros i Hi. apply in_seq in Hi. apply Z.ltb_lt.
    apply Hall. lia. }
  by rewrite Hchk.
Qed.

Definition limited_pool : manager :=
  mkManager ["k1"; "k2"] 1 (<[0%nat := 5000]> (<[1%nat := 9000]> ∅)).

Lemma chat_all_limited_busy_witness :
  chat (mkClock 1000 1000 1001 1001) (fun _ _ => None) (JSON_parse (jq "{'message':'hi'}"))
       limited_pool = (Busy503, limited_pool, []).
Proof.
  refine (chat_all_limited_busy (mkClock 1000 1000 1001 1001) (fun _ _ => None)
            (JSON_parse (jq "{'message':'hi'}")) limited_pool (mkChatRequest (js "hi") None None)
            eq_refl ltac:(simpl; lia) _).
  intros [|[|i]] Hi; simpl in Hi; [vm_compute; reflexivity|vm_compute; reflexivity|lia].
Defined.

(** The route calls [fetch] with a key only if that key is a non-empty
    entry of the pool whose penalty had run out at the selection instant. *)
Theorem chat_fetches_available_key (c : clock)
    (upstream : string -> list (jsstring * jsstring) -> option upstream_response)
    (reqBody : option jval) (m : manager) :
  Forall (fun k => k <> EmptyString /\
                   exists i, keys m !! i = Some k /\ rateLimitedUntil m i <= t_select c)
         (chat c upstream reqBody m).2.
Proof.
  unfold chat.
  destruct (chatRequestSchema_parse reqBody) as [req|]; simpl; [|constructor].
  destruct (getNextAvailableKey (t_select c) m) as [[k|] m1] eqn:Hn; simpl; [|constructor].
  apply getNext_some in Hn as (i & Hi & Hr & _).
  destruct (String.eqb_spec k EmptyString) as [|Hk]; simpl; [constructor|].
  assert (Hf : Forall (fun k => k <> EmptyString /\
                   exists i, keys m !! i = Some k /\ rateLimitedUntil m i <= t_select c) [k])
    by (constructor; [split; [done|by exists i]|constructor]).
  destruct (upstream k (build_messages req)) as [r|]; simpl; [|done].
  destruct (negb (response_ok r)).
  - destruct (status r =? 429); [|done].
    destruct (getNextAvailableKey (t_retry c) _) as [nk m3].
    by destruct (no_key nk).
  - by destruct (body r).
Qed.

End ChatExtras.

(** * Counting what the streaming loop writes *)
Module RelayExtras.
Import Json Relay RelayFacts.

Definition is_done (e : event) : bool :=
  match e with EvDone => true | EvContent _ => false end.

(** A line written [data: [DONE]] exactly. *)
Definition is_done_line (line : jsstring) : bool :=
  bool_decide (line = js "data: [DONE]").

Lemma starts_with_drop (p l : jsstring) :
  starts_with p l = true -> l = p ++ drop (length p) l.
Proof.
  revert l. induction p as [|c p IH]; intros l H; [done|].
  destruct l as [|d l]; [discriminate|]. simpl in H.
  apply andb_true_iff in H as [Hc H]. apply N.eqb_eq in Hc as ->.
  simpl. f_equal. by apply IH.
Qed.

Lemma process_line_count (line : jsstring) :
  length (List.filter is_done (process_line line)) = (if is_done_line line then 1 else 0)%nat /\
  (length (process_line line) <= 1)%nat.
Proof.
  unfold process_line, is_done_line.
  destruct (starts_with (js "data: ") line) eqn:Hs.
  - apply starts_with_drop in Hs. simpl length in Hs.
    case_bool_decide as Hd.
    + rewrite bool_decide_true; [simpl; lia|]. rewrite Hs, Hd. reflexivity.
    + rewrite bool_decide_false.
      2:{ intros Hl. apply Hd. rewrite Hl. reflexivity. }
      repeat case_match; simpl; lia.
  - rewrite bool_decide_false; [simpl; lia|].
    intros ->. discriminate Hs.
Qed.

(** The loop writes one [data: [DONE]] frame per line [data: [DONE]]
    upstream sent, and never more frames than it received lines: each
    line of each decoded chunk gives at most one [res.write]. *)
Theorem relay_done_count (reads : list jsstring) :
  length (List.filter is_done (relay reads)) =
    length (List.filter is_done_line (flat_map split_nl reads)) /\
  (length (relay reads) <= length (flat_map split_nl reads))%nat.
Proof.
  induction reads as [|chunk reads [IH1 IH2]]; [simpl; lia|].
  simpl. rewrite !List.filter_app, !length_app.
  enough (length (List.filter is_done (flat_map process_line (split_nl chunk))) =
            length (List.filter is_done_line (split_nl chunk)) /\
          (length (flat_map process_line (split_nl chunk)) <= length (split_nl chunk))%nat)
    by lia.
  induction (split_nl chunk) as [|line ls [J1 J2]]; [simpl; lia|].
  simpl. rewrite List.filter_app, !length_app.
  destruct (process_line_count line) as [P1 P2].
  simpl List.filter at 2.
  destruct (is_done_line line); simpl; lia.
Qed.

End RelayExtras.

(** * Properties of the client page and of the stream it reads *)
Module ClientExtras.
Import Json Relay RelayFacts Chat Client.

Lemma psb_plain (c : N) (r acc : jsstring) :
  (32 <= c)%N -> c <> 34%N -> c <> 92%N ->
  parse_string_body (c :: r) acc = parse_string_body r (c :: acc).
Proof.
  intros H32 H34 H92.
  assert (E : ((c <? 32) || (c =? 92))%N = false).
  { apply orb_false_iff. split; [apply N.ltb_ge | apply N.eqb_neq]; lia. }
  destruct c as [|p]; [lia|].
  do 7 (try destruct p as [p|p|]);
    try (exfalso; apply H34; reflexivity); try (exfalso; apply H92; reflexivity);
    cbn [parse_string_body]; rewrite ?E; reflexivity.
Qed.

Lemma hex_value_digit (n : N) : (n < 16)%N -> hex_value (hex_digit n) = Some n.
Proof.
  intros Hn. unfold hex_value, hex_digit, is_digit.
  destruct (N.ltb_spec n 10).
  - rewrite (proj2 (N.leb_le _ _)), (proj2 (N.leb_le _ _)) by lia. simpl. f_equal. lia.
  - replace ((48 <=? 87 + n) && (87 + n <=? 57))%N with false
      by (symmetry; apply andb_false_iff; right; apply N.leb_gt; lia).
    replace ((65 <=? 87 + n) && (87 + n <=? 70))%N with false
      by (symmetry; apply andb_false_iff; right; apply N.leb_gt; lia).
    rewrite (proj2 (N.leb_le _ _)), (proj2 (N.leb_le _ _)) by lia. simpl. f_equal. lia.
Qed.

Lemma nibbles (c : N) : (c < 65536)%N ->
  ((((c / 4096 mod 16) * 16 + c / 256 mod 16) * 16 + c / 16 mod 16) * 16 + c mod 16 = c)%N.
Proof.
  intros H.
  replace 4096%N with (16 * 16 * 16)%N by reflexivity.
  replace 256%N with (16 * 16)%N by reflexivity.
  rewrite <- !N.Div0.div_div.
  pose proof (N.div_mod c 16 ltac:(lia)). pose proof (N.div_mod (c/16) 16 ltac:(lia)).
  pose proof (N.div_mod (c/16/16) 16 ltac:(lia)).
  pose proof (N.mod_lt c 16 ltac:(lia)). pose proof (N.mod_lt (c/16) 16 ltac:(lia)).
  pose proof (N.mod_lt (c/16/16) 16 ltac:(lia)).
  remember (c/16/16/16)%N as x. remember ((c/16/16) mod 16)%N as y.
  remember (c/16/16)%N as b. remember ((c/16) mod 16)%N as z.
  remember (c/16)%N as a. remember (c mod 16)%N as w.
  clear Heqx Heqy Heqb Heqz Heqa Heqw.
  assert (x < 16)%N by lia.
  rewrite (N.mod_small x) by lia. lia.
Qed.

Lemma psb_unicode (c : N) (r acc : jsstring) : (c < 65536)%N ->
  parse_string_body (unicode_escape c ++ r) acc = parse_string_body r (c :: acc).
Proof.
  intros Hc. unfold unicode_escape. cbn [app parse_string_body].
  rewrite !hex_value_digit by (apply N.mod_lt; lia).
  by rewrite nibbles.
Qed.

Lemma psb_escape_unit (c : N) (r acc : jsstring) : (c < 65536)%N ->
  parse_string_body (escape_unit c ++ r) acc = parse_string_body r (c :: acc).
Proof.
  intros Hc. unfold escape_unit.
  destruct (N.eqb_spec c 8) as [->|]; [reflexivity|].
  destruct (N.eqb_spec c 9) as [->|]; [reflexivity|].
  destruct (N.eqb_spec c 10) as [->|]; [reflexivity|].
  destruct (N.eqb_spec c 12) as [->|]; [reflexivity|].
  destruct (N.eqb_spec c 13) as [->|]; [reflexivity|].
  destruct (N.eqb_spec c 34) as [->|]; [reflexivity|].
  destruct (N.eqb_spec c 92) as [->|]; [reflexivity|].
  destruct ((c <? 32)%N || is_high c || is_low c) eqn:Hu.
  - by apply psb_unicode.
  - apply orb_false_iff in Hu as [Hu _]. apply orb_false_iff in Hu as [Hu _].
    apply N.ltb_ge in Hu. simpl. by apply psb_plain.
Qed.

Lemma quote_body_cons2 (c d : N) (r : jsstring) :
  quote_body (c :: d :: r) =
  if is_high c && is_low d then c :: d :: quote_body r else escape_unit c ++ quote_body (d :: r).
Proof. reflexivity. Qed.

Lemma psb_quote_body (s rest acc : jsstring) :
  Forall (fun c => (c < 65536)%N) s ->
  parse_string_body (quote_body s ++ 34%N :: rest) acc = Some (rev acc ++ s, rest).
Proof.
  revert acc. induction s as [s IH] using (induction_ltof1 _ (@length N)).
  unfold ltof in IH. intros acc Hs.
  destruct s as [|c [|d r]]; [| |rewrite quote_body_cons2].
  - simpl. by rewrite app_nil_r.
  - apply Forall_cons in Hs as [Hc _]. simpl quote_body.
    rewrite psb_escape_unit by done. reflexivity.
  - apply Forall_cons in Hs as [Hc Hs]. apply Forall_cons in Hs as [Hd Hr].
    destruct (is_high c && is_low d) eqn:Hp.
    + apply andb_true_iff in Hp as [Hh Hl].
      unfold is_high, is_low in *. apply andb_true_iff in Hh as [Hh1 _].
      apply andb_true_iff in Hl as [Hl1 _]. apply N.leb_le in Hh1, Hl1.
      simpl app. rewrite psb_plain, psb_plain by lia.
      rewrite IH by (simpl; lia || done). simpl. by rewrite <- !app_assoc.
    + rewrite <- app_assoc, psb_escape_unit by done.
      rewrite IH by (simpl; lia || by constructor). simpl. by rewrite <- app_assoc.
Qed.

(** [JSON.parse(JSON.stringify(s))] gives back [s] for every string of
    UTF-16 code units, lone surrogates and control characters included. *)
Theorem quote_roundtrip (s : jsstring) :
  Forall (fun c => (c < 65536)%N) s -> JSON_parse (quote s) = Some (JStr s).
Proof.
  intros Hs. unfold JSON_parse, quote.
  destruct (2 * length (34%N :: quote_body s ++ [34%N]) + 2)%nat as [|f] eqn:Ef; [lia|].
  cbn [parse_value skip_ws is_ws N.eqb Pos.eqb orb].
  rewrite (psb_quote_body s [] [] Hs). reflexivity.
Qed.

Lemma hex_digit_not_nl (n : N) : hex_digit n <> 10%N.
Proof. unfold hex_digit. destruct (n <? 10)%N; lia. Qed.

Lemma escape_unit_no_nl (c : N) : ~ In 10%N (escape_unit c).
Proof.
  unfold escape_unit.
  destruct (N.eqb_spec c 8); [simpl; intuition discriminate|].
  destruct (N.eqb_spec c 9); [simpl; intuition discriminate|].
  destruct (N.eqb_spec c 10); [simpl; intuition discriminate|].
  destruct (N.eqb_spec c 12); [simpl; intuition discriminate|].
  destruct (N.eqb_spec c 13); [simpl; intuition discriminate|].
  destruct (N.eqb_spec c 34); [simpl; intuition discriminate|].
  destruct (N.eqb_spec c 92); [simpl; intuition discriminate|].
  destruct ((c <? 32)%N || is_high c || is_low c).
  - unfold unicode_escape. intros H. simpl in H.
    repeat destruct H as [H|H]; try discriminate; try contradiction;
      by apply hex_digit_not_nl in H.
  - intros [H|[]]. lia.
Qed.

Lemma quote_body_no_nl (s : jsstring) : ~ In 10%N (quote_body s).
Proof.
  induction s as [s IH] using (induction_ltof1 _ (@length N)). unfold ltof in IH.
  destruct s as [|c [|d r]]; [| |rewrite quote_body_cons2].
  - intros [].
  - apply escape_unit_no_nl.
  - destruct (is_high c && is_low d) eqn:Hp.
    + apply andb_true_iff in Hp as [Hh Hl]. unfold is_high, is_low in *.
      apply andb_true_iff in Hh as [Hh1 _]. apply andb_true_iff in Hl as [Hl1 _].
      apply N.leb_le in Hh1, Hl1.
      intros [H|[H|H]]; [lia|lia|]. revert H. apply IH. simpl. lia.
    + rewrite in_app_iff. intros [H|H]; [by apply escape_unit_no_nl in H|].
      revert H. apply IH. simpl. lia.
Qed.

(** The line of a content frame, without its two newlines. *)
Definition content_line (content : jsstring) : jsstring :=
  jq "data: {'content':" ++ quote content ++ js "}".

Lemma starts_with_app_prefix (p l : jsstring) : starts_with p (p ++ l) = true.
Proof. induction p as [|c p IH]; simpl; [done|]. by rewrite N.eqb_refl, IH. Qed.

Lemma content_frame_split (content : jsstring) :
  split_nl (content_frame content) = [content_line content; []; []].
Proof.
  unfold content_frame.
  replace (jq "data: {'content':" ++ quote content ++ js "}" ++ [10%N; 10%N])
    with (content_line content ++ 10%N :: [10%N])
    by (unfold content_line; by rewrite <- !app_assoc).
  rewrite split_nl_newline, split_nl_no_newline; [reflexivity|].
  unfold content_line, quote. rewrite !in_app_iff. intros [H|[H|H]].
  - simpl in H. intuition discriminate.
  - destruct H as [H|H]; [discriminate|].
    apply in_app_iff in H as [H|H]; [by apply quote_body_no_nl in H|].
    simpl in H. intuition discriminate.
  - simpl in H. intuition discriminate.
Qed.

Lemma content_object_parse (s : jsstring) :
  Forall (fun c => (c < 65536)%N) s ->
  JSON_parse (jq "{'content':" ++ quote s ++ js "}") = Some (JObj [(js "content", JStr s)]).
Proof.
  intros Hs.
  replace (jq "{'content':" ++ quote s ++ js "}")
    with (jq "{'content':" ++ 34%N :: quote_body s ++ 34%N :: [125%N])
    by (unfold quote; simpl; by rewrite <- app_assoc).
  unfold JSON_parse.
  destruct (2 * length (jq "{'content':" ++ 34%N :: quote_body s ++ [34%N; 125%N]) + 2)%nat
    as [|[|[|f]]] eqn:Ef; try (rewrite length_app in Ef; simpl in Ef; lia).
  simpl. rewrite psb_quote_body by done. reflexivity.
Qed.

Lemma client_line_content (s : jsstring) :
  s <> [] -> Forall (fun c => (c < 65536)%N) s ->
  client_line (content_line s) = Some (JStr s).
Proof.
  intros Hne Hs. unfold client_line.
  replace (content_line s) with (js "data: " ++ (jq "{'content':" ++ quote s ++ js "}"))
    by (unfold content_line; by rewrite app_assoc).
  rewrite (starts_with_app_prefix (js "data: ")).
  change (drop 6 ?l) with (drop (length (js "data: ")) l). rewrite drop_app_length.
  rewrite bool_decide_false
    by (intros H; apply (f_equal (fun l => head l)) in H; discriminate).
  rewrite content_object_parse by done.
  unfold get_named, assoc_last. simpl.
  try rewrite (bool_decide_true (js "content" = js "content")) by reflexivity. simpl.
  by rewrite (bool_decide_false (s = [])) by done.
Qed.

(** Every string the server relays as [data: {"content": s}] reaches the
    client as [s], in order, when each chunk the client reads is one
    [res.write]: the client's [JSON.parse] undoes the server's
    [JSON.stringify], and the final [data: [DONE]] adds nothing. *)
Theorem stream_roundtrip (cs : list jsstring) :
  Forall (fun s => s <> [] /\ Forall (fun c => (c < 65536)%N) s) cs ->
  client_read (map content_frame cs ++ [done_frame]) = map JStr cs.
Proof.
  induction cs as [|s cs IH]; intros Hcs; [reflexivity|].
  apply Forall_cons in Hcs as [[Hne Hs] Hcs].
  simpl map. rewrite <- app_comm_cons. cbn [client_read].
  rewrite content_frame_split. cbn [flat_map].
  rewrite client_line_content by done. simpl. by rewrite IH.
Qed.

Lemma stream_roundtrip_witness :
  client_read (map content_frame [js "Hi"; [55357%N; 56832%N]; [56832%N; 10%N; 34%N]] ++ [done_frame])
  = [JStr (js "Hi"); JStr [55357%N; 56832%N]; JStr [56832%N; 10%N; 34%N]].
Proof.
  apply stream_roundtrip.
  repeat constructor; try discriminate; vm_compute; reflexivity.
Defined.

Lemma quote_roundtrip_witness :
  JSON_parse (quote [55296%N; 0%N; 92%N; 34%N; 47%N]) = Some (JStr [55296%N; 0%N; 92%N; 34%N; 47%N]).
Proof.
  apply quote_roundtrip. repeat constructor; vm_compute; reflexivity.
Defined.

(** The title [createNewConversation] stores is at most 53 code units,
    begins with the first 50 of the message, and equals the message
    exactly when the message has at most 50 code units or its part after
    the 50th is [...]. *)
Theorem conversation_title_shape (firstMessage : jsstring) :
  (length (conversation_title firstMessage) <= 53)%nat /\
  take 50 (conversation_title firstMessage) = take 50 firstMessage /\
  (conversation_title firstMessage = firstMessage <->
   (length firstMessage <= 50)%nat \/ drop 50 firstMessage = js "...").
Proof.
  unfold conversation_title.
  destruct (Nat.ltb_spec 50 (length firstMessage)) as [Hl|Hl].
  - assert (Ht : length (take 50 firstMessage) = 50%nat) by (rewrite length_take; lia).
    split; [rewrite length_app, Ht; simpl; lia|].
    split.
    + rewrite take_app, Ht, Nat.sub_diag, take_0, app_nil_r.
      rewrite take_take. f_equal.
    + split.
      * intros H. right. rewrite <- H. rewrite <- Ht at 1. by rewrite drop_app_length.
      * intros [H|H]; [lia|]. rewrite <- H. apply take_drop.
  - assert (Ht : take 50 firstMessage = firstMessage) by (apply take_ge; lia).
    rewrite app_nil_r, !Ht. split; [lia|]. split; [done|]. tauto.
Qed.

(** [getSessionId] settles on one non-empty id: once it has run, a later
    call returns the same id and writes nothing, whatever [nanoid()] would
    give. *)
Theorem getSessionId_stable (store : gmap string jsstring) (fresh fresh' : jsstring) :
  fresh <> [] ->
  (getSessionId store fresh).1 <> [] /\
  getSessionId (getSessionId store fresh).2 fresh' = getSessionId store fresh.
Proof.
  intros Hf. unfold getSessionId.
  destruct (store !! "sessionId"%string) as [[|x l]|] eqn:E; simpl.
  - rewrite lookup_insert_eq. destruct fresh as [|y f]; [done|]. split; [done|]. reflexivity.
  - rewrite E. split; [done|]. reflexivity.
  - rewrite lookup_insert_eq. destruct fresh as [|y f]; [done|]. split; [done|]. reflexivity.
Qed.

Lemma getSessionId_stable_witness :
  (getSessionId ∅ (js "V1StGXR8")).1 <> [] /\
  getSessionId (getSessionId ∅ (js "V1StGXR8")).2 (js "other") = getSessionId ∅ (js "V1StGXR8").
Proof. apply getSessionId_stable. discriminate. Defined.

Lemma parse_turn_encoded (rc : jsstring * jsstring) :
  rc.1 = js "user" \/ rc.1 = js "assistant" ->
  parse_turn (JObj [(js "role", JStr rc.1); (js "content", JStr rc.2)]) = Some rc.
Proof.
  destruct rc as [r c]. simpl. intros Hr. unfold parse_turn, assoc_last. simpl.
  try rewrite (bool_decide_true (js "role" = js "role")) by reflexivity.
  try rewrite (bool_decide_false (js "content" = js "role")) by discriminate.
  try rewrite (bool_decide_false (js "role" = js "content")) by discriminate.
  try rewrite (bool_decide_true (js "content" = js "content")) by reflexivity.
  simpl. destruct Hr as [->| ->]; reflexivity.
Qed.

Lemma all_some_turns (ms : list (jsstring * jsstring)) :
  Forall (fun rc => rc.1 = js "user" \/ rc.1 = js "assistant") ms ->
  all_some parse_turn
    (map (fun rc => JObj [(js "role", JStr rc.1); (js "content", JStr rc.2)]) ms) = Some ms.
Proof.
  induction 1 as [|rc ms Hrc _ IH]; [reflexivity|].
  cbn [map all_some]. by rewrite parse_turn_encoded, IH.
Qed.

(** What [handleSend] posts passes [chatRequestSchema] exactly when a
    conversation id was available: the history the client keeps only has
    [user] and [assistant] turns, but a [null] [conversationId] (no current
    conversation, and [createNewConversation] failed) is rejected.  When it
    passes, the server sees the trimmed input and the client's history. *)
Theorem handleSend_schema (st : client_state) (created : option jsstring) (reqBody : jval) :
  Forall (fun rc => rc.1 = js "user" \/ rc.1 = js "assistant") (messages st) ->
  handleSend_body st created = Some reqBody ->
  chatRequestSchema_parse (Some reqBody) =
    option_map (fun id => mkChatRequest (trim (input st)) (Some (messages st)) (Some id))
               (send_conversation_id st created).
Proof.
  intros Hroles. unfold handleSend_body.
  destruct (bool_decide (trim (input st) = []) || isLoading st || negb (tosAccepted st))
    eqn:Hg; [discriminate|].
  intros H. injection H as <-.
  apply orb_false_iff in Hg as [Hg _]. apply orb_false_iff in Hg as [Hg _].
  apply bool_decide_eq_false in Hg.
  unfold chatRequestSchema_parse, assoc_last. simpl.
  try rewrite (bool_decide_true (js "message" = js "message")) by reflexivity.
  try rewrite (bool_decide_false (js "conversationHistory" = js "message")) by discriminate.
  try rewrite (bool_decide_false (js "conversationId" = js "message")) by discriminate.
  try rewrite (bool_decide_false (js "message" = js "conversationHistory")) by discriminate.
  try rewrite (bool_decide_true (js "conversationHistory" = js "conversationHistory")) by reflexivity.
  try rewrite (bool_decide_false (js "conversationId" = js "conversationHistory")) by discriminate.
  try rewrite (bool_decide_false (js "message" = js "conversationId")) by discriminate.
  try rewrite (bool_decide_false (js "conversationHistory" = js "conversationId")) by discriminate.
  try rewrite (bool_decide_true (js "conversationId" = js "conversationId")) by reflexivity.
  simpl. rewrite all_some_turns by done. simpl.
  destruct (trim (input st)) as [|u t]; [done|].
  by destruct (send_conversation_id st created).
Qed.

Definition first_send : client_state :=
  mkClientState [(js "user", js "hello"); (js "assistant", js "Hi!")] (js "  next  ") false true None.

Lemma handleSend_schema_witness :
  chatRequestSchema_parse (Some (default JNull (handleSend_body first_send None))) = None.
Proof.
  refine (handleSend_schema first_send None _ _ _).
  - constructor; [left; reflexivity|constructor; [right; reflexivity|constructor]].
  - vm_compute. reflexivity.
Defined.

(** The first code unit, if any, is not one [trim] removes. *)
Definition head_clean (l : jsstring) : Prop :=
  match l with [] => True | c :: _ => js_space c = false end.

Lemma drop_spaces_clean (l : jsstring) : head_clean (drop_spaces l).
Proof.
  induction l as [|c l IH]; simpl; [done|].
  destruct (js_space c) eqn:Hc; [done|]. exact Hc.
Qed.

Lemma drop_spaces_fix (l : jsstring) : head_clean l -> drop_spaces l = l.
Proof. destruct l as [|c l]; simpl; [done|]. by intros ->. Qed.

Lemma drop_spaces_suffix (l : jsstring) : exists p, l = p ++ drop_spaces l.
Proof.
  induction l as [|c l [p Hp]]; simpl; [by exists []|].
  destruct (js_space c); [exists (c :: p); simpl; by f_equal|by exists []].
Qed.

(** The message [handleSend] sends, shows and saves, [input.trim()],
    neither begins nor ends with white space, and trimming it again
    changes nothing. *)
Theorem trim_clean (s : jsstring) :
  head_clean (trim s) /\ head_clean (rev (trim s)) /\ trim (trim s) = trim s.
Proof.
  unfold trim. set (a := drop_spaces s). set (b := drop_spaces (rev a)).
  assert (Ha : head_clean a) by apply drop_spaces_clean.
  assert (Hb : head_clean b) by apply drop_spaces_clean.
  assert (Hrb : head_clean (rev b)).
  { destruct (drop_spaces_suffix (rev a)) as [p Hp]. fold b in Hp.
    assert (Ha' : a = rev b ++ rev p) by (rewrite <- rev_app_distr, <- Hp; by rewrite rev_involutive).
    rewrite Ha' in Ha. destruct (rev b); [done|exact Ha]. }
  rewrite rev_involutive. split; [done|]. split; [done|].
  rewrite (drop_spaces_fix (rev b)) by done. rewrite rev_involutive.
  by rewrite (drop_spaces_fix b).
Qed.

End ClientExtras.
